(** * litevideo/output/core.py: video scan-out core

    Shallow embedding of the frame initiator's layout, of the timing
    generator, of the driver's stream wiring and side-signal delay line and
    of the construction of [VideoOutCore], with the properties of the design
    document stated over them.

    A Migen module is a set of registers, a combinational block and a
    synchronous block.  Registers are a record; one clock tick is a function
    from the inputs and the registers before the tick to the registers after
    it.  A synchronous statement reads the registers before the tick and
    writes into the pending next values, so a later assignment to the same
    register overrides an earlier one. *)

From Stdlib Require Import ZArith List Bool Lia String.
From stdpp Require Import base option gmap strings.
Import ListNotations.

Local Open Scope Z_scope.

(** Assignment to a signal of [w] bits keeps the low [w] bits. *)
Definition trunc (w x : Z) : Z := x mod 2 ^ w.

Lemma trunc_small w x : 0 <= x < 2 ^ w -> trunc w x = x.
Proof. intros H. unfold trunc. now apply Z.mod_small. Qed.

(** Case analysis on every integer test, and on every minimum, of the goal. *)
Ltac split_tests :=
  repeat match goal with
  | |- context [?a =? ?b] => destruct (Z.eqb_spec a b)
  | |- context [?a <? ?b] => destruct (Z.ltb_spec a b)
  | |- context [?a <=? ?b] => destruct (Z.leb_spec a b)
  end.

Ltac split_mins :=
  repeat match goal with
  | |- context [Z.min ?a ?b] =>
      let H := fresh in
      destruct (Z.min_spec a b) as [[H ->] | [H ->]]
  end.

Module TimingGenerator.

(** [frame_parameter_layout]: the payload of [sink].  The layout itself is
    declared in litevideo.output.common; these are the fields the generator
    reads. *)
Record frame_parameter := FrameParameter {
  hres : Z;
  hsync_start : Z;
  hsync_end : Z;
  hscan : Z;
  vres : Z;
  vsync_start : Z;
  vsync_end : Z;
  vscan : Z
}.

(** The registers of the module: the three local signals assigned in
    [self.sync] and the three fields of [source] assigned there. *)
Record regs := Regs {
  hactive : bool;
  vactive : bool;
  hcounter : Z;
  vcounter : Z;
  source_last : bool;
  source_hsync : bool;
  source_vsync : bool
}.

(** Every Migen register resets to 0. *)
Definition reset : regs := Regs false false 0 0 false false false.

(** What the environment drives on one clock cycle. *)
Record tg_in := TgIn {
  sink_valid : bool;
  sink : frame_parameter;
  source_ready : bool
}.

(** What the module drives on one clock cycle. *)
Record tg_out := TgOut {
  active : bool;
  source_valid : bool;
  source_de : bool;
  sink_ready : bool;
  out_last : bool;
  out_hsync : bool;
  out_vsync : bool
}.

(** ** Synchronous statements *)

Definition stmt : Type := tg_in -> regs -> regs -> regs.
Definition expr (A : Type) : Type := tg_in -> regs -> A.

Definition block (body : list stmt) : stmt :=
  fun i pre nxt => fold_left (fun acc s => s i pre acc) body nxt.

Definition If (c : expr bool) (body : list stmt) : stmt :=
  fun i pre nxt => if c i pre then block body i pre nxt else nxt.

Definition IfElse (c : expr bool) (body orelse : list stmt) : stmt :=
  fun i pre nxt =>
    if c i pre then block body i pre nxt else block orelse i pre nxt.

Section Widths.

(** [hbits] and [vbits] come from litevideo.output.common. *)
Variables hbits vbits : Z.

Definition hactive_eq (e : expr bool) : stmt :=
  fun i pre n =>
    Regs (e i pre) (vactive n) (hcounter n) (vcounter n)
         (source_last n) (source_hsync n) (source_vsync n).

Definition vactive_eq (e : expr bool) : stmt :=
  fun i pre n =>
    Regs (hactive n) (e i pre) (hcounter n) (vcounter n)
         (source_last n) (source_hsync n) (source_vsync n).

Definition hcounter_eq (e : expr Z) : stmt :=
  fun i pre n =>
    Regs (hactive n) (vactive n) (trunc hbits (e i pre)) (vcounter n)
         (source_last n) (source_hsync n) (source_vsync n).

Definition vcounter_eq (e : expr Z) : stmt :=
  fun i pre n =>
    Regs (hactive n) (vactive n) (hcounter n) (trunc vbits (e i pre))
         (source_last n) (source_hsync n) (source_vsync n).

Definition source_last_eq (e : expr bool) : stmt :=
  fun i pre n =>
    Regs (hactive n) (vactive n) (hcounter n) (vcounter n)
         (e i pre) (source_hsync n) (source_vsync n).

Definition source_hsync_eq (e : expr bool) : stmt :=
  fun i pre n =>
    Regs (hactive n) (vactive n) (hcounter n) (vcounter n)
         (source_last n) (e i pre) (source_vsync n).

Definition source_vsync_eq (e : expr bool) : stmt :=
  fun i pre n =>
    Regs (hactive n) (vactive n) (hcounter n) (vcounter n)
         (source_last n) (source_hsync n) (e i pre).

Definition lit {A} (a : A) : expr A := fun _ _ => a.

(** [self.sync], lines 81-104. *)
Definition sync : list stmt :=
  [ If (fun i _ => sink_valid i && source_ready i)
      [ source_last_eq (lit false);
        hcounter_eq (fun _ r => hcounter r + 1);

        If (fun _ r => hcounter r =? 0) [ hactive_eq (lit true) ];
        If (fun i r => hcounter r =? hres (sink i)) [ hactive_eq (lit false) ];
        If (fun i r => hcounter r =? hsync_start (sink i))
          [ source_hsync_eq (lit true) ];
        If (fun i r => hcounter r =? hsync_end (sink i))
          [ source_hsync_eq (lit false) ];
        If (fun i r => hcounter r =? hscan (sink i))
          [ hcounter_eq (lit 0);
            IfElse (fun i r => vcounter r =? vscan (sink i))
              [ vcounter_eq (lit 0);
                source_last_eq (lit true) ]
              [ vcounter_eq (fun _ r => vcounter r + 1) ] ];

        If (fun _ r => vcounter r =? 0) [ vactive_eq (lit true) ];
        If (fun i r => vcounter r =? vres (sink i)) [ vactive_eq (lit false) ];
        If (fun i r => vcounter r =? vsync_start (sink i))
          [ source_vsync_eq (lit true) ];
        If (fun i r => vcounter r =? vsync_end (sink i))
          [ source_vsync_eq (lit false) ] ] ].

(** One clock tick: every statement reads [r], the pending values start
    from [r] (a register that is not assigned keeps its value). *)
Definition tick (i : tg_in) (r : regs) : regs := block sync i r r.

(** The two [self.comb] blocks, lines 69-79 and 105.  A combinational signal
    that is not assigned is 0. *)
Definition comb (i : tg_in) (r : regs) : tg_out :=
  let active := if sink_valid i then hactive r && vactive r else false in
  let valid := if sink_valid i then (if active then true else true) else false in
  let de := if sink_valid i then (if active then true else false) else false in
  TgOut active valid de (source_ready i && source_last r)
        (source_last r) (source_hsync r) (source_vsync r).

(** A step is accepted when the geometry token is valid and the downstream
    is ready: the guard of the synchronous block. *)
Definition accepted (i : tg_in) : bool := sink_valid i && source_ready i.

(** An element leaves through [source] when valid and ready meet. *)
Definition emitted (i : tg_in) (r : regs) : option tg_out :=
  if source_valid (comb i r) && source_ready i then Some (comb i r) else None.

(** The registers after an accepted step, every right-hand side written
    over the registers before the step. *)
Definition snapshot_update (i : tg_in) (r : regs) : regs :=
  let g := sink i in
  let hc := hcounter r in
  let vc := vcounter r in
  Regs (if hc =? hres g then false else if hc =? 0 then true else hactive r)
       (if vc =? vres g then false else if vc =? 0 then true else vactive r)
       (if hc =? hscan g then 0 else trunc hbits (hc + 1))
       (if hc =? hscan g
        then (if vc =? vscan g then 0 else trunc vbits (vc + 1))
        else vc)
       ((hc =? hscan g) && (vc =? vscan g))
       (if hc =? hsync_end g then false
        else if hc =? hsync_start g then true else source_hsync r)
       (if vc =? vsync_end g then false
        else if vc =? vsync_start g then true else source_vsync r).

(** Running the generator over a list of clock cycles: the registers at the
    end, and the elements that left through [source]. *)
Fixpoint run (r : regs) (ins : list tg_in) : regs :=
  match ins with
  | [] => r
  | i :: rest => run (tick i r) rest
  end.

Fixpoint transfers (r : regs) (ins : list tg_in) : list tg_out :=
  match ins with
  | [] => []
  | i :: rest =>
      match emitted i r with
      | Some o => o :: transfers (tick i r) rest
      | None => transfers (tick i r) rest
      end
  end.

Lemma trunc_0 w : trunc w 0 = 0.
Proof. unfold trunc. apply Zmod_0_l. Qed.

Lemma tick_stalled i r : accepted i = false -> tick i r = r.
Proof.
  unfold accepted, tick, sync, block, If. simpl. intros ->. reflexivity.
Qed.

Lemma tick_accepted i r : accepted i = true -> tick i r = snapshot_update i r.
Proof.
  unfold accepted, tick, sync, snapshot_update. intros Ha.
  destruct r as [ha va hc vc l hs vs]. destruct (sink i) as [a b c d e f g h] eqn:Eg.
  unfold block, If, IfElse, fold_left.
  rewrite Ha. cbn -[Z.eqb trunc]. rewrite Eg. cbn -[Z.eqb trunc].
  destruct (hc =? 0) eqn:E0; destruct (hc =? a) eqn:E1;
  destruct (hc =? b) eqn:E2; destruct (hc =? c) eqn:E3;
  destruct (hc =? d) eqn:E4; destruct (vc =? h) eqn:E5;
  destruct (vc =? 0) eqn:E6; destruct (vc =? e) eqn:E7;
  destruct (vc =? f) eqn:E8; destruct (vc =? g) eqn:E9;
  cbn -[Z.eqb trunc]; rewrite ?trunc_0; reflexivity.
Qed.


Lemma run_app r ins1 ins2 : run r (ins1 ++ ins2) = run (run r ins1) ins2.
Proof. revert r. induction ins1 as [|i ins1 IH]; intros r; simpl; auto. Qed.

Lemma run_filter_accepted r ins : run r ins = run r (List.filter accepted ins).
Proof.
  revert r. induction ins as [|i ins IH]; intros r; simpl; [reflexivity|].
  destruct (accepted i) eqn:Ha; simpl.
  - apply IH.
  - rewrite (tick_stalled i r Ha). apply IH.
Qed.

Lemma emitted_accepted i r :
  emitted i r = if accepted i then Some (comb i r) else None.
Proof.
  unfold emitted, accepted, comb. simpl.
  destruct (sink_valid i), (source_ready i), (hactive r && vactive r); reflexivity.
Qed.

Lemma transfers_filter_accepted r ins :
  transfers r ins = transfers r (List.filter accepted ins).
Proof.
  revert r. induction ins as [|i ins IH]; intros r; simpl; [reflexivity|].
  rewrite emitted_accepted.
  destruct (accepted i) eqn:Ha; simpl.
  - rewrite emitted_accepted, Ha. f_equal. apply IH.
  - rewrite (tick_stalled i r Ha). apply IH.
Qed.

Lemma comb_reads_registers i r :
  active (comb i r) = sink_valid i && (hactive r && vactive r) /\
  source_de (comb i r) = sink_valid i && (hactive r && vactive r) /\
  out_last (comb i r) = source_last r /\
  out_hsync (comb i r) = source_hsync r /\
  out_vsync (comb i r) = source_vsync r.
Proof.
  unfold comb. simpl.
  destruct (sink_valid i), (hactive r && vactive r); repeat split.
Qed.

(** C1.  The registers change on accepted steps only; an accepted step
    computes every next value from the registers before the step, and what
    the module drives during a cycle is read from the registers before the
    tick, so an update shows from the next cycle on; a step that is not
    accepted leaves every register as it was and lets nothing out, so cycles
    without valid or without ready can be removed from any run without
    changing where it ends or what left through [source]. *)
Theorem timing_state_changes_on_accepted_steps_only :
  (forall i r, tick i r = if accepted i then snapshot_update i r else r) /\
  (forall i r,
      active (comb i r) = sink_valid i && (hactive r && vactive r) /\
      source_de (comb i r) = sink_valid i && (hactive r && vactive r) /\
      out_last (comb i r) = source_last r /\
      out_hsync (comb i r) = source_hsync r /\
      out_vsync (comb i r) = source_vsync r) /\
  (forall i r, emitted i r = if accepted i then Some (comb i r) else None) /\
  (forall r ins,
      run r ins = run r (List.filter accepted ins) /\
      transfers r ins = transfers r (List.filter accepted ins)).
Proof.
  split; [|split; [|split]].
  - intros i r. destruct (accepted i) eqn:Ha.
    + now apply tick_accepted.
    + now apply tick_stalled.
  - apply comb_reads_registers.
  - apply emitted_accepted.
  - intros r ins. split.
    + apply run_filter_accepted.
    + apply transfers_filter_accepted.
Qed.


(** ** One frame with the downstream always ready *)

Definition always_ready (g : frame_parameter) : tg_in := TgIn true g true.

(** The registers after [k] accepted steps under geometry [g]. *)
Definition after (g : frame_parameter) (r : regs) (k : nat) : regs :=
  run r (repeat (always_ready g) k).

(** The scan totals fit the counters that are compared with them. *)
Definition well_sized (g : frame_parameter) : Prop :=
  0 <= hscan g < 2 ^ hbits /\ 0 <= vscan g < 2 ^ vbits.

Definition resolution_fits (g : frame_parameter) : Prop :=
  0 <= hres g <= hscan g /\ 0 <= vres g <= vscan g.

(** Steps per frame: both counters run from 0 to the scan total inclusive. *)
Definition frame_steps (g : frame_parameter) : nat :=
  Z.to_nat ((hscan g + 1) * (vscan g + 1)).

(** The flag [active] (and [source.de]) that the registers [s] drive while
    the token is valid. *)
Definition active_flag (g : frame_parameter) (s : regs) : bool :=
  source_de (comb (always_ready g) s).

(** What the two activity registers hold in terms of the counters, once a
    step has been taken. *)
Definition flags_follow (g : frame_parameter) (s : regs) : Prop :=
  hactive s = (1 <=? hcounter s) && (hcounter s <=? hres g) /\
  vactive s = (if hcounter s =? 0
               then (1 <=? vcounter s) && (vcounter s <=? vres g)
               else vcounter s <? vres g).

Lemma after_S g r k : after g r (S k) = tick (always_ready g) (after g r k).
Proof.
  unfold after. change (S k) with (1 + k)%nat.
  replace (repeat (always_ready g) (1 + k))
    with (repeat (always_ready g) k ++ [always_ready g]).
  - now rewrite run_app.
  - simpl. symmetry. apply repeat_cons.
Qed.

Lemma active_flag_eq g s : active_flag g s = hactive s && vactive s.
Proof. unfold active_flag, comb. simpl. now destruct (hactive s && vactive s). Qed.

Lemma step_counters g s :
  well_sized g ->
  0 <= hcounter s <= hscan g -> 0 <= vcounter s <= vscan g ->
  hcounter (tick (always_ready g) s) =
    (if hcounter s =? hscan g then 0 else hcounter s + 1) /\
  vcounter (tick (always_ready g) s) =
    (if hcounter s =? hscan g
     then (if vcounter s =? vscan g then 0 else vcounter s + 1)
     else vcounter s).
Proof.
  intros [Hh Hv] Hc Hd. rewrite tick_accepted by reflexivity.
  unfold snapshot_update. cbn [hcounter vcounter sink always_ready].
  split; split_tests; try reflexivity; apply trunc_small; lia.
Qed.

Lemma step_flags g s :
  well_sized g -> resolution_fits g ->
  0 <= hcounter s <= hscan g -> 0 <= vcounter s <= vscan g ->
  flags_follow g s \/ (hcounter s = 0 /\ vcounter s = 0) ->
  hactive (tick (always_ready g) s) = (hcounter s <? hres g) /\
  vactive (tick (always_ready g) s) = (vcounter s <? vres g) /\
  flags_follow g (tick (always_ready g) s).
Proof.
  intros Hw [Hh Hv] Hc Hd Hf.
  destruct (step_counters g s Hw Hc Hd) as [Ec Ed].
  unfold flags_follow. rewrite Ec, Ed. clear Ec Ed.
  rewrite tick_accepted by reflexivity.
  unfold snapshot_update. cbn [hactive vactive sink always_ready].
  destruct Hf as [[-> ->] | [E1 E2]].
  - repeat split; split_tests; try reflexivity; lia.
  - rewrite E1, E2. repeat split; split_tests; try reflexivity; lia.
Qed.

Lemma frame_position g r k :
  well_sized g -> hcounter r = 0 -> vcounter r = 0 ->
  Z.of_nat k < (hscan g + 1) * (vscan g + 1) ->
  exists q c,
    Z.of_nat k = q * (hscan g + 1) + c /\
    0 <= c <= hscan g /\ 0 <= q <= vscan g /\
    hcounter (after g r k) = c /\ vcounter (after g r k) = q.
Proof.
  intros Hw Hr1 Hr2. induction k as [|k IH]; intros Hk.
  - exists 0, 0. destruct Hw. unfold after. simpl. repeat split; auto; lia.
  - destruct IH as (q & c & Ek & Hc & Hq & E1 & E2); [lia|].
    rewrite after_S.
    destruct (step_counters g (after g r k) Hw) as [Ec Ed]; [lia | lia |].
    rewrite Ec, Ed, E1, E2.
    destruct (Z.eqb_spec c (hscan g)) as [->|Hne].
    + assert (q <> vscan g) by nia.
      destruct (Z.eqb_spec q (vscan g)); [contradiction|].
      exists (q + 1), 0. repeat split; lia.
    + exists q, (c + 1). repeat split; lia.
Qed.

Lemma frame_position_div_mod g r k :
  well_sized g -> hcounter r = 0 -> vcounter r = 0 ->
  Z.of_nat k < (hscan g + 1) * (vscan g + 1) ->
  hcounter (after g r k) = Z.of_nat k mod (hscan g + 1) /\
  vcounter (after g r k) = Z.of_nat k / (hscan g + 1).
Proof.
  intros Hw Hr1 Hr2 Hk.
  destruct (frame_position g r k Hw Hr1 Hr2 Hk) as (q & c & Ek & Hc & Hq & -> & ->).
  split.
  - apply Z.mod_unique with q; lia.
  - apply Z.div_unique with c; lia.
Qed.

Lemma frame_steps_eq g :
  well_sized g -> Z.of_nat (frame_steps g) = (hscan g + 1) * (vscan g + 1).
Proof. intros [Hh Hv]. unfold frame_steps. rewrite Z2Nat.id; nia. Qed.

Lemma frame_last_step g r k :
  well_sized g -> hcounter r = 0 -> vcounter r = 0 ->
  (k < frame_steps g)%nat ->
  (hcounter (after g r k) = hscan g /\ vcounter (after g r k) = vscan g) <->
  k = (frame_steps g - 1)%nat.
Proof.
  intros Hw Hr1 Hr2 Hk. pose proof (frame_steps_eq g Hw) as EN.
  destruct (frame_position g r k Hw Hr1 Hr2) as (q & c & Ek & Hc & Hq & -> & ->);
    [lia|].
  split.
  - intros [-> ->]. nia.
  - intros ->. assert (Z.of_nat (frame_steps g - 1) = (hscan g + 1) * (vscan g + 1) - 1) by lia.
    assert (q = vscan g) by nia. subst q. split; nia.
Qed.

Lemma frame_wraps g r :
  well_sized g -> hcounter r = 0 -> vcounter r = 0 ->
  hcounter (after g r (frame_steps g)) = 0 /\
  vcounter (after g r (frame_steps g)) = 0.
Proof.
  intros Hw Hr1 Hr2. pose proof (frame_steps_eq g Hw) as EN.
  assert (Hpos : (0 < frame_steps g)%nat) by (destruct Hw; nia).
  destruct (frame_steps g) as [|n] eqn:En; [lia|].
  destruct (frame_last_step g r n Hw Hr1 Hr2) as [_ Hl]; [lia|].
  destruct Hl as [E1 E2]; [lia|].
  rewrite after_S.
  destruct (step_counters g (after g r n) Hw) as [Ec Ed];
    [destruct Hw; lia | destruct Hw; lia |].
  rewrite Ec, Ed, E1, E2, !Z.eqb_refl. auto.
Qed.


Lemma frame_flags g r k :
  well_sized g -> resolution_fits g -> hcounter r = 0 -> vcounter r = 0 ->
  Z.of_nat k < (hscan g + 1) * (vscan g + 1) ->
  hactive (after g r (S k)) = (hcounter (after g r k) <? hres g) /\
  vactive (after g r (S k)) = (vcounter (after g r k) <? vres g) /\
  flags_follow g (after g r (S k)).
Proof.
  intros Hw Hf Hr1 Hr2. induction k as [|k IH]; intros Hk.
  - rewrite after_S. destruct Hw as [? ?] eqn:E. clear E.
    apply step_flags; auto; unfold after; simpl; rewrite ?Hr1, ?Hr2; lia.
  - destruct IH as (_ & _ & IH); [lia|].
    destruct (frame_position g r (S k) Hw Hr1 Hr2 Hk)
      as (q & c & _ & Hc & Hq & E1 & E2).
    rewrite (after_S g r (S k)).
    apply step_flags; auto; rewrite ?E1, ?E2; lia.
Qed.

(** Seen on one and the same cycle, the registers lag the counters by one
    step: after step [k] of a frame the active flag is driven exactly while
    [hcounter] is in [[1,hres]] and [vcounter] in [[0,vres)]. *)
Lemma active_flag_same_cycle g r k :
  well_sized g -> resolution_fits g -> hcounter r = 0 -> vcounter r = 0 ->
  Z.of_nat k < (hscan g + 1) * (vscan g + 1) ->
  active_flag g (after g r (S k)) =
    (1 <=? hcounter (after g r (S k))) &&
    (hcounter (after g r (S k)) <=? hres g) &&
    (vcounter (after g r (S k)) <? vres g).
Proof.
  intros Hw Hf Hr1 Hr2 Hk.
  destruct (frame_flags g r k Hw Hf Hr1 Hr2 Hk) as (_ & _ & Fh & Fv).
  rewrite active_flag_eq, Fh, Fv.
  destruct (Z.eqb_spec (hcounter (after g r (S k))) 0) as [->|Hne].
  - reflexivity.
  - reflexivity.
Qed.

(** How many of the first [n] steps of a run leave the active flag set. *)
Definition active_steps (g : frame_parameter) (r : regs) (n : nat) : Z :=
  Z.of_nat (length (List.filter (fun k => active_flag g (after g r (S k)))
                                (seq 0 n))).

Lemma active_steps_S g r n :
  active_steps g r (S n) =
  active_steps g r n + (if active_flag g (after g r (S n)) then 1 else 0).
Proof.
  unfold active_steps. rewrite seq_S, List.filter_app, List.length_app. simpl.
  destruct (active_flag g (after g r (S n))); simpl; lia.
Qed.

Lemma active_steps_closed g r k :
  well_sized g -> resolution_fits g -> hcounter r = 0 -> vcounter r = 0 ->
  Z.of_nat k < (hscan g + 1) * (vscan g + 1) ->
  exists q c,
    Z.of_nat k = q * (hscan g + 1) + c /\
    0 <= c <= hscan g /\ 0 <= q <= vscan g /\
    hcounter (after g r k) = c /\ vcounter (after g r k) = q /\
    active_steps g r (S k) =
      Z.min q (vres g) * hres g +
      (if q <? vres g then Z.min (c + 1) (hres g) else 0).
Proof.
  intros Hw Hf Hr1 Hr2. induction k as [|k IH]; intros Hk.
  - exists 0, 0.
    destruct (frame_flags g r 0 Hw Hf Hr1 Hr2 Hk) as (Fh & Fv & _).
    rewrite active_steps_S, active_flag_eq, Fh, Fv.
    unfold active_steps, after. simpl. rewrite Hr1, Hr2.
    destruct Hw as [? ?], Hf as [? ?].
    repeat split; try lia.
    split_tests; split_mins; cbn [andb]; (lia || nia).
  - destruct IH as (q & c & Ek & Hc & Hq & E1 & E2 & En); [lia|].
    destruct (frame_flags g r (S k) Hw Hf Hr1 Hr2 Hk) as (Fh & Fv & _).
    rewrite active_steps_S, active_flag_eq, Fh, Fv, En. clear Fh Fv En.
    rewrite (after_S g r k).
    destruct (step_counters g (after g r k) Hw) as [Ec Ed]; [lia | lia |].
    rewrite Ec, Ed, E1, E2. clear Ec Ed.
    destruct Hf as [? ?].
    destruct (Z.eqb_spec c (hscan g)) as [->|Hne].
    + assert (q <> vscan g) by nia.
      destruct (Z.eqb_spec q (vscan g)); [contradiction|].
      exists (q + 1), 0. repeat split; try lia.
      split_tests; split_mins; cbn [andb]; (lia || nia).
    + exists q, (c + 1). repeat split; try lia.
      split_tests; split_mins; cbn [andb]; (lia || nia).
Qed.

Lemma filter_seq_none (p : nat -> bool) n :
  (forall k, (k < n)%nat -> p k = false) -> List.filter p (seq 0 n) = [].
Proof.
  induction n as [|n IH]; intros Hp; [reflexivity|].
  rewrite seq_S, List.filter_app, IH by (intros; apply Hp; lia).
  simpl. now rewrite Hp by lia.
Qed.

Lemma filter_seq_single (p : nat -> bool) n :
  (forall k, (k < S n)%nat -> p k = true <-> k = n) ->
  length (List.filter p (seq 0 (S n))) = 1%nat.
Proof.
  intros Hp. rewrite seq_S, List.filter_app, filter_seq_none.
  - simpl. replace (p n) with true; [reflexivity|].
    symmetry. apply Hp; lia.
  - intros k Hk. destruct (p k) eqn:E; [|reflexivity].
    apply Hp in E; lia.
Qed.

(** C2.  An accepted step sets [source.last] exactly when the counters it
    reads are [hscan] and [vscan], and clears it otherwise.  In a frame (the
    [(hscan+1)*(vscan+1)] accepted steps that start with both counters at 0)
    the only step that sets it is the final one, after which both counters
    are 0 again: one pulse per frame, one accepted step wide.  The flag is a
    register, so [source.last] carries the value set by a step from the
    following clock cycle on. *)
Theorem frame_boundary_once_per_frame (g : frame_parameter) (r : regs) :
  well_sized g -> hcounter r = 0 -> vcounter r = 0 ->
  (forall i s, accepted i = true ->
     source_last (tick i s) =
       (hcounter s =? hscan (sink i)) && (vcounter s =? vscan (sink i))) /\
  (forall k, (k < frame_steps g)%nat ->
     source_last (after g r (S k)) = true <->
     hcounter (after g r k) = hscan g /\ vcounter (after g r k) = vscan g) /\
  (forall k, (k < frame_steps g)%nat ->
     source_last (after g r (S k)) = true <-> k = (frame_steps g - 1)%nat) /\
  length (List.filter (fun k => source_last (after g r (S k)))
                      (seq 0 (frame_steps g))) = 1%nat /\
  hcounter (after g r (frame_steps g)) = 0 /\
  vcounter (after g r (frame_steps g)) = 0.
Proof.
  intros Hw Hr1 Hr2.
  assert (Hset : forall i s, accepted i = true ->
     source_last (tick i s) =
       (hcounter s =? hscan (sink i)) && (vcounter s =? vscan (sink i))).
  { intros i s Ha. now rewrite tick_accepted. }
  assert (Hpos : forall k, (k < frame_steps g)%nat ->
     source_last (after g r (S k)) = true <->
     hcounter (after g r k) = hscan g /\ vcounter (after g r k) = vscan g).
  { intros k Hk. rewrite after_S, Hset by reflexivity.
    cbn [sink always_ready]. rewrite andb_true_iff, !Z.eqb_eq. tauto. }
  assert (Honce : forall k, (k < frame_steps g)%nat ->
     source_last (after g r (S k)) = true <-> k = (frame_steps g - 1)%nat).
  { intros k Hk. rewrite Hpos by assumption. now apply frame_last_step. }
  split; [exact Hset|]. split; [exact Hpos|]. split; [exact Honce|].
  split; [|exact (frame_wraps g r Hw Hr1 Hr2)].
  pose proof (frame_steps_eq g Hw) as EN.
  destruct (frame_steps g) as [|n] eqn:En; [destruct Hw; nia|].
  apply filter_seq_single. intros k Hk. rewrite Honce by lia. lia.
Qed.

(** C4.  For [0 < hres <= hscan] and [0 < vres <= vscan], a step of a frame
    leaves the active flag set exactly when the counters it reads lie in
    [[0,hres) x [0,vres)], and [hres * vres] steps of the frame do so.
    [active] is combinational over the registers [hactive] and [vactive], so
    the flag left by a step is the one driven on the following cycle. *)
Theorem active_flag_covers_resolution (g : frame_parameter) (r : regs) :
  well_sized g ->
  0 < hres g <= hscan g -> 0 < vres g <= vscan g ->
  hcounter r = 0 -> vcounter r = 0 ->
  (forall k, (k < frame_steps g)%nat ->
     active_flag g (after g r (S k)) = true <->
     (0 <= hcounter (after g r k) < hres g /\
      0 <= vcounter (after g r k) < vres g)) /\
  active_steps g r (frame_steps g) = hres g * vres g.
Proof.
  intros Hw Hh Hv Hr1 Hr2.
  assert (Hf : resolution_fits g) by (split; lia).
  pose proof (frame_steps_eq g Hw) as EN.
  split.
  - intros k Hk.
    destruct (frame_flags g r k Hw Hf Hr1 Hr2) as (Fh & Fv & _); [lia|].
    destruct (frame_position g r k Hw Hr1 Hr2) as (q & c & _ & Hc & Hq & E1 & E2);
      [lia|].
    rewrite active_flag_eq, Fh, Fv, E1, E2, andb_true_iff, !Z.ltb_lt. lia.
  - destruct (frame_steps g) as [|n] eqn:En; [destruct Hw; nia|].
    destruct (active_steps_closed g r n Hw Hf Hr1 Hr2)
      as (q & c & Ek & Hc & Hq & _ & _ & ->); [lia|].
    assert (q = vscan g) by nia. subst q.
    assert (c = hscan g) by nia. subst c.
    split_tests; split_mins; (lia || nia).
Qed.

(** ** Zero resolution *)

(** The combinational outputs on every cycle of a run. *)
Fixpoint outputs (r : regs) (ins : list tg_in) : list tg_out :=
  match ins with
  | [] => []
  | i :: rest => comb i r :: outputs (tick i r) rest
  end.

(** The scan side of the registers: counters, syncs and frame boundary. *)
Definition scan_view (r : regs) : Z * Z * bool * bool * bool :=
  (hcounter r, vcounter r, source_hsync r, source_vsync r, source_last r).

(** Two cycles that differ at most in [hres] and [vres]. *)
Definition same_scan (i j : tg_in) : Prop :=
  sink_valid i = sink_valid j /\ source_ready i = source_ready j /\
  hsync_start (sink i) = hsync_start (sink j) /\
  hsync_end (sink i) = hsync_end (sink j) /\
  hscan (sink i) = hscan (sink j) /\
  vsync_start (sink i) = vsync_start (sink j) /\
  vsync_end (sink i) = vsync_end (sink j) /\
  vscan (sink i) = vscan (sink j).

(** An invariant of the runs with a zero resolution: the activity register
    of that axis is low, as it is at reset, and every token to come has a zero
    resolution on that axis. *)
Definition zero_resolution (r : regs) (ins : list tg_in) : Prop :=
  (hactive r = false /\ Forall (fun i => hres (sink i) = 0) ins) \/
  (vactive r = false /\ Forall (fun i => vres (sink i) = 0) ins).

Lemma tick_eq i r : tick i r = if accepted i then snapshot_update i r else r.
Proof.
  destruct (accepted i) eqn:Ha; [now apply tick_accepted | now apply tick_stalled].
Qed.

Lemma hactive_stays_low i r :
  hactive r = false -> hres (sink i) = 0 -> hactive (tick i r) = false.
Proof.
  intros Hr Hz. rewrite tick_eq. destruct (accepted i); [|assumption].
  unfold snapshot_update. cbn [hactive]. rewrite Hz, Hr.
  now destruct (hcounter r =? 0).
Qed.

Lemma vactive_stays_low i r :
  vactive r = false -> vres (sink i) = 0 -> vactive (tick i r) = false.
Proof.
  intros Hr Hz. rewrite tick_eq. destruct (accepted i); [|assumption].
  unfold snapshot_update. cbn [vactive]. rewrite Hz, Hr.
  now destruct (vcounter r =? 0).
Qed.

Lemma zero_resolution_outputs r ins :
  zero_resolution r ins ->
  Forall (fun o => active o = false /\ source_de o = false) (outputs r ins).
Proof.
  revert r. induction ins as [|i ins IH]; intros r Hz; simpl; [constructor|].
  constructor.
  - unfold comb. cbn [active source_de].
    destruct Hz as [[-> _] | [-> _]]; destruct (sink_valid i), (hactive r), (vactive r);
      auto.
  - apply IH. destruct Hz as [[Hr Hall] | [Hr Hall]]; inversion Hall; subst.
    + left. split; [now apply hactive_stays_low | assumption].
    + right. split; [now apply vactive_stays_low | assumption].
Qed.

Lemma scan_view_tick i j r r' :
  scan_view r = scan_view r' -> same_scan i j ->
  scan_view (tick i r) = scan_view (tick j r').
Proof.
  unfold scan_view, same_scan.
  intros E (Hv & Hr & H1 & H2 & H3 & H4 & H5 & H6).
  inversion E as [[E1 E2 E3 E4 E5]].
  rewrite !tick_eq. unfold accepted. rewrite Hv, Hr.
  destruct (sink_valid j && source_ready j).
  - unfold snapshot_update. cbn [hcounter vcounter source_hsync source_vsync source_last].
    now rewrite E1, E2, E3, E4, H1, H2, H3, H4, H5, H6.
  - now rewrite E1, E2, E3, E4, E5.
Qed.

Lemma scan_view_run r r' ins ins' :
  scan_view r = scan_view r' -> Forall2 same_scan ins ins' ->
  scan_view (run r ins) = scan_view (run r' ins').
Proof.
  intros E Hall. revert r r' E.
  induction Hall as [|i j ins ins' Hij _ IH]; intros r r' E; simpl; [assumption|].
  apply IH. now apply scan_view_tick.
Qed.

(** ** Geometry admission *)

(** The stream rule for the geometry source: a token that is offered and
    not taken is offered again, unchanged, on the next cycle. *)
Fixpoint holds_token (r : regs) (ins : list tg_in) : Prop :=
  match ins with
  | [] => True
  | i :: rest =>
      match rest with
      | [] => True
      | j :: _ =>
          sink_valid i = true -> sink_ready (comb i r) = false ->
          sink_valid j = true /\ sink j = sink i
      end /\ holds_token (tick i r) rest
  end.

Definition constant (l : list frame_parameter) : Prop :=
  forall g1 g2, In g1 l -> In g2 l -> g1 = g2.

Lemma constant_snoc l g :
  (forall g', In g' l -> g' = g) -> constant (l ++ [g]).
Proof.
  intros Hl g1 g2 H1 H2.
  apply in_app_or in H1. apply in_app_or in H2. simpl in H1, H2.
  assert (g1 = g) by (destruct H1 as [?|[?|[]]]; auto).
  assert (g2 = g) by (destruct H2 as [?|[?|[]]]; auto).
  congruence.
Qed.

Lemma sink_ready_eq i r :
  sink_ready (comb i r) = source_ready i && source_last r.
Proof. reflexivity. Qed.

End Widths.

(** ** Independence of the counter widths *)

Lemma tick_width_irrelevant hb vb hb' vb' g s :
  well_sized hb vb g -> well_sized hb' vb' g ->
  0 <= hcounter s <= hscan g -> 0 <= vcounter s <= vscan g ->
  tick hb vb (always_ready g) s = tick hb' vb' (always_ready g) s.
Proof.
  intros [H1 H2] [H3 H4] Hc Hd.
  rewrite !tick_accepted by reflexivity.
  unfold snapshot_update. cbn [sink always_ready].
  f_equal; split_tests; try reflexivity; rewrite !trunc_small; lia.
Qed.

Lemma after_in_range hb vb g r k :
  well_sized hb vb g ->
  0 <= hcounter r <= hscan g -> 0 <= vcounter r <= vscan g ->
  0 <= hcounter (after hb vb g r k) <= hscan g /\
  0 <= vcounter (after hb vb g r k) <= vscan g.
Proof.
  intros Hw Hc Hd. induction k as [|k IH]; [now split|].
  destruct IH as [I1 I2]. rewrite after_S.
  destruct (step_counters hb vb g (after hb vb g r k) Hw I1 I2) as [-> ->].
  destruct Hw. split; split_tests; lia.
Qed.

Lemma after_width_irrelevant hb vb hb' vb' g r k :
  well_sized hb vb g -> well_sized hb' vb' g ->
  0 <= hcounter r <= hscan g -> 0 <= vcounter r <= vscan g ->
  after hb vb g r k = after hb' vb' g r k.
Proof.
  intros Hw Hw' Hc Hd. induction k as [|k IH]; [reflexivity|].
  rewrite !after_S, <- IH.
  apply tick_width_irrelevant; auto; now apply after_in_range.
Qed.


(** ** The concrete scenario *)

(** hres=4, hsync_start=1, hsync_end=2, hscan=6, vres=2, vsync_start=0,
    vsync_end=1, vscan=3. *)
Definition scenario : frame_parameter := FrameParameter 4 1 2 6 2 0 1 3.

(** What one step of the scenario is expected to do: where the counters
    stand before it and which flags it leaves. *)
Definition scenario_step_ok (k : nat) : bool :=
  let s := after 3 2 scenario reset k in
  let s' := after 3 2 scenario reset (S k) in
  (hcounter s =? Z.of_nat k mod 7) && (vcounter s =? Z.of_nat k / 7) &&
  Bool.eqb (hactive s') (hcounter s <? 4) &&
  Bool.eqb (source_hsync s') ((1 <=? hcounter s) && (hcounter s <? 2)) &&
  Bool.eqb (source_last s') (Nat.eqb k 27).

Lemma scenario_well_sized hbits vbits :
  6 < 2 ^ hbits -> 3 < 2 ^ vbits -> well_sized hbits vbits scenario.
Proof. unfold well_sized, scenario. simpl. lia. Qed.

(** C5, as the code has it.  Under the scenario geometry with the
    downstream always ready, for every counter width that can hold the scan
    totals, a frame is (6+1)*(3+1) = 28 steps long: step [k] reads
    [hcounter = k mod 7] and [vcounter = k / 7]; it leaves [hactive] set
    exactly when it reads [hcounter] in [[0,4)], [hsync] set exactly when it
    reads [hcounter] in [[1,2)], and the frame boundary is set by step 27
    only; after step 27 both counters are 0 again. *)
Theorem scenario_frame_has_28_steps (hbits vbits : Z) :
  6 < 2 ^ hbits -> 3 < 2 ^ vbits ->
  frame_steps scenario = 28%nat /\
  (forall k, (k < 28)%nat ->
     let s := after hbits vbits scenario reset k in
     let s' := after hbits vbits scenario reset (S k) in
     hcounter s = Z.of_nat k mod 7 /\ vcounter s = Z.of_nat k / 7 /\
     hactive s' = (hcounter s <? 4) /\
     source_hsync s' = ((1 <=? hcounter s) && (hcounter s <? 2)) /\
     source_last s' = Nat.eqb k 27) /\
  hcounter (after hbits vbits scenario reset 28) = 0 /\
  vcounter (after hbits vbits scenario reset 28) = 0.
Proof.
  intros Hh Hv.
  pose proof (scenario_well_sized hbits vbits Hh Hv) as Hw.
  assert (Hw' : well_sized 3 2 scenario) by (apply scenario_well_sized; reflexivity).
  assert (E : forall k, after hbits vbits scenario reset k = after 3 2 scenario reset k).
  { intros k. apply after_width_irrelevant; auto; simpl; lia. }
  split; [reflexivity|]. split.
  - intros k Hk. cbv zeta. rewrite !E.
    assert (Hall : forallb scenario_step_ok (seq 0 28) = true) by (vm_compute; reflexivity).
    rewrite forallb_forall in Hall.
    specialize (Hall k). unfold scenario_step_ok in Hall.
    rewrite !andb_true_iff, !Z.eqb_eq, !eqb_true_iff in Hall.
    assert (Hin : In k (seq 0 28)) by (apply in_seq; lia).
    specialize (Hall Hin). tauto.
  - rewrite E. vm_compute. auto.
Qed.

Lemma scenario_frame_has_28_steps_witness :
  6 < 2 ^ 12 /\ 3 < 2 ^ 12 /\
  hcounter (after 12 12 scenario reset 28) = 0 /\
  vcounter (after 12 12 scenario reset 28) = 0.
Proof.
  assert (H1 : 6 < 2 ^ 12) by reflexivity.
  assert (H2 : 3 < 2 ^ 12) by reflexivity.
  split; [exact H1|]. split; [exact H2|].
  exact (proj2 (proj2 (scenario_frame_has_28_steps 12 12 H1 H2))).
Defined.

(** C5, as the design document has it, fails: with 12-bit counters, 18
    steps after reset the counters stand at (4, 2), in the middle of the
    third line; none of the steps 0..17 has set the frame boundary and none
    has seen it on [source.last]; it is step 27 that sets it. *)
Lemma scenario_frame_is_not_18_steps :
  hcounter (after 12 12 scenario reset 18) = 4 /\
  vcounter (after 12 12 scenario reset 18) = 2 /\
  List.filter (fun k => source_last (after 12 12 scenario reset (S k))) (seq 0 18) = [] /\
  List.filter (fun k => source_last (after 12 12 scenario reset k)) (seq 0 18) = [] /\
  source_last (after 12 12 scenario reset 28) = true.
Proof. vm_compute. repeat split. Qed.

(** ** Instances *)

Lemma frame_boundary_once_per_frame_witness :
  well_sized 12 12 scenario /\
  length (List.filter (fun k => source_last (after 12 12 scenario reset (S k)))
                      (seq 0 (frame_steps scenario))) = 1%nat.
Proof.
  assert (Hw : well_sized 12 12 scenario) by (apply scenario_well_sized; reflexivity).
  split; [exact Hw|].
  exact (proj1 (proj2 (proj2 (proj2
    (frame_boundary_once_per_frame 12 12 scenario reset Hw eq_refl eq_refl))))).
Defined.

Lemma active_flag_covers_resolution_witness :
  well_sized 12 12 scenario /\
  active_steps 12 12 scenario reset (frame_steps scenario) = 4 * 2.
Proof.
  assert (Hw : well_sized 12 12 scenario) by (apply scenario_well_sized; reflexivity).
  split; [exact Hw|].
  refine (proj2 (active_flag_covers_resolution 12 12 scenario reset Hw _ _ eq_refl eq_refl));
    simpl; lia.
Defined.

(** The scenario with a zero horizontal resolution. *)
Definition blank_scenario : frame_parameter := FrameParameter 0 1 2 6 2 0 1 3.

(** Two-step frames: [hscan = 1], [vscan = 0]. *)
Definition short_frame (h : Z) : frame_parameter := FrameParameter h 0 1 1 1 0 0 0.

End TimingGenerator.

(** * Stream boundaries *)

Module Stream.

(** One stage boundary on one clock cycle, seen from both sides: the
    producer's [source] endpoint ([valid] it drives, [ready] it sees) and
    the consumer's [sink] endpoint ([valid] it sees, [ready] it drives). *)
Record boundary := Boundary {
  out_valid : bool;
  out_ready : bool;
  in_valid : bool;
  in_ready : bool
}.

(** The producer lets its element go / the consumer takes an element. *)
Definition leaves (b : boundary) : bool := out_valid b && out_ready b.
Definition enters (b : boundary) : bool := in_valid b && in_ready b.

(** [source.connect(sink)]: valid (and payload) go forward, ready goes
    backward. *)
Definition connect (source_valid sink_ready : bool) : boundary :=
  Boundary source_valid sink_ready source_valid sink_ready.

(** Backpressure at a boundary: a producer facing a consumer that is not
    ready keeps its element, and an element that leaves the producer enters
    the consumer. *)
Definition held_back (b : boundary) : Prop :=
  in_ready b = false -> leaves b = false.

Definition lossless (b : boundary) : Prop :=
  leaves b = true -> enters b = true.

Definition backpressured (b : boundary) : Prop := held_back b /\ lossless b.

Lemma connect_backpressured v r : backpressured (connect v r).
Proof.
  unfold backpressured, held_back, lossless, leaves, enters, connect. simpl.
  split; [intros -> | trivial]. apply andb_false_r.
Qed.

End Stream.

(** * Driver *)

Module Driver.

(** The side signals that travel next to the pixel. *)
Record side := Side {
  de : bool;
  hsync : bool;
  vsync : bool
}.

Definition side_reset : side := Side false false false.

Section Driver.

(** The payload of [phy_description(pack_factor)] and of the chroma
    upsampler's output are declared outside this file. *)
Variables phy ycbcr444 : Type.

(** [chroma_upsampler.latency] and [ycbcr2rgb.latency]. *)
Variables chroma_upsampler_latency ycbcr2rgb_latency : nat.

(** What the submodules and the parent drive on one cycle. *)
Record driven := Driven {
  sink_valid : bool;
  sink_payload : phy;
  fifo_sink_ready : bool;
  fifo_source_valid : bool;
  fifo_source_payload : phy;
  converter_sink_ready : bool;
  converter_source_valid : bool;
  converter_source : side;
  converter_source_data : Z;
  chroma_upsampler_sink_ready : bool;
  chroma_upsampler_source_valid : bool;
  chroma_upsampler_source_payload : ycbcr444;
  ycbcr2rgb_sink_ready : bool;
  ycbcr2rgb_source_valid : bool;
  ycbcr2rgb_source_r : Z;
  ycbcr2rgb_source_g : Z;
  ycbcr2rgb_source_b : Z
}.

(** What the driver's own [self.comb] statements drive. *)
Record wired := Wired {
  sink_ready : bool;
  fifo_sink_valid : bool;
  fifo_sink_payload : phy;
  fifo_source_ready : bool;
  converter_sink_valid : bool;
  converter_sink_payload : phy;
  converter_source_ready : bool;
  chroma_upsampler_sink_valid : bool;
  chroma_upsampler_sink_y : Z;
  chroma_upsampler_sink_cb_cr : Z;
  chroma_upsampler_source_ready : bool;
  ycbcr2rgb_sink_valid : bool;
  ycbcr2rgb_sink_payload : ycbcr444;
  ycbcr2rgb_source_ready : bool;
  hdmi_phy_r : Z;
  hdmi_phy_g : Z;
  hdmi_phy_b : Z
}.

(** Lines 138-158 and 183-185. *)
Definition comb (d : driven) : wired :=
  {| (* self.sink.connect(fifo.sink) *)
     fifo_sink_valid := sink_valid d;
     fifo_sink_payload := sink_payload d;
     sink_ready := fifo_sink_ready d;
     (* fifo.source.connect(converter.sink) *)
     converter_sink_valid := fifo_source_valid d;
     converter_sink_payload := fifo_source_payload d;
     fifo_source_ready := converter_sink_ready d;
     (* converter.source.ready.eq(1) *)
     converter_source_ready := true;
     (* chroma_upsampler.sink *)
     chroma_upsampler_sink_valid := de (converter_source d);
     chroma_upsampler_sink_y := Z.shiftr (converter_source_data d) 8;
     chroma_upsampler_sink_cb_cr := Z.land (converter_source_data d) 255;
     (* chroma_upsampler.source.connect(ycbcr2rgb.sink) *)
     ycbcr2rgb_sink_valid := chroma_upsampler_source_valid d;
     ycbcr2rgb_sink_payload := chroma_upsampler_source_payload d;
     chroma_upsampler_source_ready := ycbcr2rgb_sink_ready d;
     (* ycbcr2rgb.source.ready.eq(1) *)
     ycbcr2rgb_source_ready := true;
     hdmi_phy_r := ycbcr2rgb_source_r d;
     hdmi_phy_g := ycbcr2rgb_source_g d;
     hdmi_phy_b := ycbcr2rgb_source_b d |}.

(** The stage boundaries inside the driver. *)
Definition sink_to_fifo (d : driven) : Stream.boundary :=
  Stream.Boundary (sink_valid d) (sink_ready (comb d))
                  (fifo_sink_valid (comb d)) (fifo_sink_ready d).

Definition fifo_to_converter (d : driven) : Stream.boundary :=
  Stream.Boundary (fifo_source_valid d) (fifo_source_ready (comb d))
                  (converter_sink_valid (comb d)) (converter_sink_ready d).

Definition converter_to_chroma_upsampler (d : driven) : Stream.boundary :=
  Stream.Boundary (converter_source_valid d) (converter_source_ready (comb d))
                  (chroma_upsampler_sink_valid (comb d))
                  (chroma_upsampler_sink_ready d).

Definition chroma_upsampler_to_ycbcr2rgb (d : driven) : Stream.boundary :=
  Stream.Boundary (chroma_upsampler_source_valid d)
                  (chroma_upsampler_source_ready (comb d))
                  (ycbcr2rgb_sink_valid (comb d)) (ycbcr2rgb_sink_ready d).

(** ** The delay line of the side signals, lines 160-175 *)

(** The loop runs [chroma_upsampler.latency + ycbcr2rgb.latency] times and
    adds one register per turn. *)
Definition depth : nat := chroma_upsampler_latency + ycbcr2rgb_latency.

(** One tick of [self.sync.pix]: every register takes the value that the
    stage before it had before the tick; [prev] is the stage before the
    first register of [regs]. *)
Fixpoint shift (prev : side) (regs : list side) : list side :=
  match regs with
  | [] => []
  | r :: rest => prev :: shift r rest
  end.

(** The signal left in [de], [hsync], [vsync] when the loop ends: the last
    register, or the converter's output when the loop did not run. *)
Fixpoint tap (prev : side) (regs : list side) : side :=
  match regs with
  | [] => prev
  | r :: rest => tap r rest
  end.

(** The registers at cycle [t], when the converter drives [input t'] on
    cycle [t']. *)
Fixpoint regs_at (input : nat -> side) (t : nat) : list side :=
  match t with
  | O => repeat side_reset depth
  | S t' => shift (input t') (regs_at input t')
  end.

(** [hdmi_phy.de], [hdmi_phy.hsync], [hdmi_phy.vsync] at cycle [t]. *)
Definition hdmi_phy_side (input : nat -> side) (t : nat) : side :=
  tap (input t) (regs_at input t).


Lemma length_shift prev regs : length (shift prev regs) = length regs.
Proof. revert prev. induction regs as [|r rest IH]; intros prev; simpl; auto. Qed.

Lemma nth_shift regs : forall prev i d,
  (i < length regs)%nat ->
  nth i (shift prev regs) d = match i with O => prev | S j => nth j regs d end.
Proof.
  induction regs as [|r rest IH]; intros prev i d Hi; simpl in Hi; [lia|].
  destruct i as [|j]; [reflexivity|]. simpl.
  rewrite IH by lia. now destruct j.
Qed.

Lemma tap_nth regs : forall prev,
  tap prev regs =
  match length regs with O => prev | S n => nth n regs side_reset end.
Proof.
  induction regs as [|r rest IH]; intros prev; [reflexivity|].
  simpl. rewrite IH. destruct rest; reflexivity.
Qed.

Lemma length_regs_at input t : length (regs_at input t) = depth.
Proof.
  induction t as [|t IH]; simpl.
  - apply repeat_length.
  - now rewrite length_shift.
Qed.

Lemma nth_regs_at input t : forall i,
  (i < depth)%nat ->
  nth i (regs_at input t) side_reset =
  if (i <? t)%nat then input (t - 1 - i)%nat else side_reset.
Proof.
  induction t as [|t IH]; intros i Hi; simpl regs_at.
  - apply nth_repeat.
  - rewrite nth_shift by (now rewrite length_regs_at).
    destruct i as [|j].
    + simpl. f_equal. lia.
    + rewrite IH by lia.
      change (S j <? S t)%nat with (j <? t)%nat.
      destruct (j <? t)%nat; [f_equal; lia | reflexivity].
Qed.

(** C7.  The delay line has exactly
    [chroma_upsampler.latency + ycbcr2rgb.latency] registers, and the side
    signals at the PHY on cycle [t] are the ones the converter drove on
    cycle [t - depth] (before that, the reset value of the registers). *)
Theorem side_signals_delayed_by_pipeline_depth (input : nat -> side) (t : nat) :
  length (regs_at input t) =
    (chroma_upsampler_latency + ycbcr2rgb_latency)%nat /\
  hdmi_phy_side input t =
    if (t <? depth)%nat then side_reset else input (t - depth)%nat.
Proof.
  split; [apply length_regs_at|].
  unfold hdmi_phy_side. rewrite tap_nth, length_regs_at.
  destruct depth as [|n] eqn:Ed.
  - simpl. f_equal. lia.
  - rewrite nth_regs_at by lia.
    destruct (Nat.ltb_spec n t), (Nat.ltb_spec t (S n)); try lia; try reflexivity.
    f_equal. lia.
Qed.

End Driver.

End Driver.

(** * VideoOutCore *)

Module VideoOutCore.

Import TimingGenerator.

(** ** Elaboration *)

(** The two exceptions that building the core can raise at lines 206-243. *)
Inductive exn := TypeError | AttributeError.

(** A module as Python sees it: the endpoints set as attributes of [self],
    each with the names of its payload fields. *)
Definition frame_parameter_layout : list string :=
  [ "hres"; "hsync_start"; "hsync_end"; "hscan";
    "vres"; "vsync_start"; "vsync_end"; "vscan" ]%string.

(** The fields of [source] that the generator drives besides the
    handshake and [last]. *)
Definition frame_synchro_layout : list string :=
  [ "de"; "hsync"; "vsync" ]%string.

(** [TimingGenerator.__init__(self)], lines 56-58: no argument besides
    [self]; it sets [self.sink] and [self.source]. *)
Definition TimingGenerator_new (args : list Z) : exn + gmap string (list string) :=
  match args with
  | [] => inr (<["sink"%string := frame_parameter_layout]>
               (<["source"%string := frame_synchro_layout]> ∅))
  | _ :: _ => inl TypeError
  end.

Definition getattr (m : gmap string (list string)) (name : string)
  : exn + list string :=
  match m !! name with
  | Some e => inr e
  | None => inl AttributeError
  end.

(** The attributes of the generator that lines 215-243 read. *)
Definition vtg_attributes (vtg : gmap string (list string))
  : exn + (list string * list string * list string) :=
  match getattr vtg "timing" with
  | inl e => inl e
  | inr timing =>
      match getattr vtg "pixels" with
      | inl e => inl e
      | inr pixels =>
          match getattr vtg "phy" with
          | inl e => inl e
          | inr phy => inr (timing, pixels, phy)
          end
      end
  end.

(** [VideoOutCore.__init__] from line 206 on, for a memory port of data
    width [dw] and pixels of [bpp] bits. *)
Definition VideoOutCore_new (dw bpp : Z)
  : exn + (list string * list string * list string) :=
  let pack_factor := dw / bpp in
  match TimingGenerator_new [pack_factor] with
  | inl e => inl e
  | inr vtg => vtg_attributes vtg
  end.

(** C6.  The generator of this file takes no pack factor, has the geometry
    token as its only input and drives no pixel payload: building the core
    stops at line 206 with a [TypeError], and a generator built without
    argument has none of the endpoints [timing], [pixels] and [phy] that the
    core wires. *)
Theorem core_expects_another_timing_generator (dw bpp : Z) :
  VideoOutCore_new dw bpp = inl TypeError /\
  match TimingGenerator_new [] with
  | inl _ => False
  | inr vtg =>
      vtg !! "sink"%string = Some frame_parameter_layout /\
      vtg !! "source"%string = Some frame_synchro_layout /\
      vtg !! "pixels"%string = None /\
      vtg_attributes vtg = inl AttributeError
  end.
Proof. split; [reflexivity|]. vm_compute. repeat split. Qed.

End VideoOutCore.


(** * Further properties of the timing generator *)

Module TimingGeneratorFacts.

Import TimingGenerator.

Section Widths.

Variables hbits vbits : Z.

Local Abbreviation tick := (TimingGenerator.tick hbits vbits).
Local Abbreviation run := (TimingGenerator.run hbits vbits).
Local Abbreviation after := (TimingGenerator.after hbits vbits).
Local Abbreviation transfers := (TimingGenerator.transfers hbits vbits).
Local Abbreviation well_sized := (TimingGenerator.well_sized hbits vbits).

(** Both counters are within their scan totals. *)
Definition in_range (g : frame_parameter) (r : regs) : Prop :=
  0 <= hcounter r <= hscan g /\ 0 <= vcounter r <= vscan g.

Lemma tick_in_range g i r :
  well_sized g -> sink i = g -> in_range g r -> in_range g (tick i r).
Proof.
  intros [Hh Hv] Hg [Hc Hd]. rewrite tick_eq.
  destruct (accepted i); [|now split].
  unfold in_range, snapshot_update. cbn [hcounter vcounter]. rewrite Hg.
  split; split_tests; rewrite ?trunc_small; lia.
Qed.

(** X1.  Under one geometry whose scan totals fit the counters, whatever
    the pattern of valid and ready, the counters never leave [[0,hscan]] and
    [[0,vscan]]. *)
Theorem counters_stay_in_range (g : frame_parameter) (r : regs) (ins : list tg_in) :
  well_sized g -> in_range g r -> Forall (fun i => sink i = g) ins ->
  in_range g (run r ins).
Proof.
  intros Hw Hr Hall. revert r Hr.
  induction Hall as [|i ins Hi _ IH]; intros r Hr; simpl; [assumption|].
  apply IH. now apply tick_in_range.
Qed.

(** [source.last] is only ever high while both counters are 0. *)
Definition last_at_origin (r : regs) : Prop :=
  source_last r = true -> hcounter r = 0 /\ vcounter r = 0.

Lemma tick_last_at_origin i r : last_at_origin r -> last_at_origin (tick i r).
Proof.
  intros Hr. rewrite tick_eq. destruct (accepted i); [|assumption].
  unfold last_at_origin, snapshot_update. cbn [source_last hcounter vcounter].
  intros H. apply andb_true_iff in H. destruct H as [-> ->]. now split.
Qed.

Lemma run_last_at_origin ins : forall r,
  last_at_origin r -> last_at_origin (run r ins).
Proof.
  induction ins as [|i ins IH]; intros r Hr; simpl; [assumption|].
  apply IH. now apply tick_last_at_origin.
Qed.

(** X2.  After any history of tokens, geometry changes and stalls since
    reset, a cycle on which the generator acknowledges the geometry token
    ([sink.ready] high) is a cycle on which both counters read 0. *)
Theorem token_acknowledged_at_origin_only (ins : list tg_in) (i : tg_in) :
  sink_ready (comb i (run reset ins)) = true ->
  hcounter (run reset ins) = 0 /\ vcounter (run reset ins) = 0.
Proof.
  intros H. rewrite sink_ready_eq in H. apply andb_true_iff in H.
  destruct H as [_ Hl].
  apply (run_last_at_origin ins reset); [discriminate | exact Hl].
Qed.

(** X3.  One element leaves through [source] per accepted cycle, none on
    any other cycle, and every element that leaves carries [valid]; it
    carries [de] only together with [active]. *)
Theorem one_element_per_accepted_cycle (r : regs) (ins : list tg_in) :
  length (transfers r ins) = length (List.filter accepted ins) /\
  Forall (fun o => source_valid o = true /\ source_de o = active o)
         (transfers r ins).
Proof.
  revert r. induction ins as [|i ins IH]; intros r; simpl.
  - split; constructor.
  - rewrite emitted_accepted. destruct (IH (tick i r)) as [IH1 IH2].
    destruct (accepted i) eqn:Ha; simpl; [|now split].
    split; [now rewrite IH1|]. constructor; [|assumption].
    unfold accepted in Ha. apply andb_true_iff in Ha. destruct Ha as [Hv _].
    unfold comb. cbn [source_valid source_de active]. rewrite Hv.
    now destruct (hactive r && vactive r).
Qed.

(** X4.  A horizontal resolution beyond the scan total is never matched by
    the counter, so [hactive], set by the first step of the line, is never
    cleared again. *)
Theorem hactive_never_cleared_beyond_scan (g : frame_parameter) (r : regs) (k : nat) :
  well_sized g -> hscan g < hres g ->
  hcounter r = 0 -> 0 <= vcounter r <= vscan g ->
  hactive (after g r (S k)) = true.
Proof.
  intros Hw Hres Hc Hd.
  assert (Hr : in_range g r) by (destruct Hw; split; lia).
  induction k as [|k IH].
  - rewrite after_S. unfold TimingGenerator.after. simpl.
    rewrite tick_accepted by reflexivity.
    unfold snapshot_update. cbn [hactive sink always_ready]. rewrite Hc.
    destruct Hw. split_tests; try reflexivity; lia.
  - rewrite after_S.
    destruct (after_in_range hbits vbits g r (S k) Hw) as [Hk _];
      [apply Hr | apply Hr |].
    rewrite tick_accepted by reflexivity.
    unfold snapshot_update. cbn [hactive sink always_ready]. rewrite IH.
    split_tests; try reflexivity; lia.
Qed.

(** X5.  The counter is never clamped: when [hcounter] stands above
    [hscan] (the scan total was lowered under it), it goes on counting up to
    the largest value of its width and reaches 0 through the wrap-around of
    the increment, [2^hbits - hcounter] steps later; [vcounter] does not move
    in the meantime. *)
Theorem hcounter_above_scan_wraps_at_width (g : frame_parameter) (r : regs) (k : nat) :
  0 <= hscan g < hcounter r -> hcounter r < 2 ^ hbits ->
  hcounter r + Z.of_nat k <= 2 ^ hbits ->
  hcounter (after g r k) = (hcounter r + Z.of_nat k) mod 2 ^ hbits /\
  vcounter (after g r k) = vcounter r.
Proof.
  intros Hs Hw. induction k as [|k IH]; intros Hk.
  - unfold TimingGenerator.after. simpl. rewrite Z.add_0_r.
    split; [|reflexivity]. symmetry. apply Z.mod_small. lia.
  - destruct IH as [E1 E2]; [lia|].
    rewrite Z.mod_small in E1 by lia.
    rewrite after_S, tick_accepted by reflexivity.
    unfold snapshot_update. cbn [hcounter vcounter sink always_ready].
    rewrite E1, E2.
    destruct (Z.eqb_spec (hcounter r + Z.of_nat k) (hscan g)); [lia|].
    split; [|reflexivity]. unfold trunc. f_equal. lia.
Qed.


(** ** Sync pulses and the state at a frame boundary *)

(** The sync windows are ordered and end within the scan totals. *)
Definition sync_windows_fit (g : frame_parameter) : Prop :=
  0 <= hsync_start g <= hsync_end g /\ hsync_end g <= hscan g /\
  0 <= vsync_start g <= vsync_end g /\ vsync_end g <= vscan g.

(** What the two sync registers hold in terms of the counters. *)
Definition syncs_follow (g : frame_parameter) (s : regs) : Prop :=
  source_hsync s =
    (hsync_start g <? hcounter s) && (hcounter s <=? hsync_end g) /\
  source_vsync s =
    (if hcounter s =? 0
     then (vsync_start g <? vcounter s) && (vcounter s <=? vsync_end g)
     else (vsync_start g <=? vcounter s) && (vcounter s <? vsync_end g)).

Lemma step_syncs g s :
  well_sized g -> sync_windows_fit g -> in_range g s -> syncs_follow g s ->
  source_hsync (tick (always_ready g) s) =
    (hsync_start g <=? hcounter s) && (hcounter s <? hsync_end g) /\
  source_vsync (tick (always_ready g) s) =
    (vsync_start g <=? vcounter s) && (vcounter s <? vsync_end g) /\
  syncs_follow g (tick (always_ready g) s).
Proof.
  intros Hw (H1 & H2 & H3 & H4) [Hc Hd] [Eh Ev].
  destruct (step_counters hbits vbits g s Hw Hc Hd) as [Ec Ed].
  unfold syncs_follow. rewrite Ec, Ed. clear Ec Ed.
  rewrite tick_accepted by reflexivity.
  unfold snapshot_update. cbn [source_hsync source_vsync sink always_ready].
  rewrite Eh, Ev. clear Eh Ev.
  repeat split; split_tests; try reflexivity; lia.
Qed.

Lemma syncs_follow_origin g r :
  sync_windows_fit g -> hcounter r = 0 -> vcounter r = 0 ->
  source_hsync r = false -> source_vsync r = false -> syncs_follow g r.
Proof.
  intros (H1 & H2 & H3 & H4) Hc Hd Eh Ev.
  unfold syncs_follow. rewrite Hc, Hd, Eh, Ev.
  split; split_tests; try reflexivity; lia.
Qed.

Lemma after_syncs g r k :
  well_sized g -> sync_windows_fit g ->
  hcounter r = 0 -> vcounter r = 0 ->
  source_hsync r = false -> source_vsync r = false ->
  source_hsync (after g r (S k)) =
    (hsync_start g <=? hcounter (after g r k)) &&
    (hcounter (after g r k) <? hsync_end g) /\
  source_vsync (after g r (S k)) =
    (vsync_start g <=? vcounter (after g r k)) &&
    (vcounter (after g r k) <? vsync_end g) /\
  syncs_follow g (after g r (S k)).
Proof.
  intros Hw Hs Hc Hd Eh Ev.
  assert (Hr : in_range g r) by (destruct Hw; split; lia).
  assert (Hk : forall n, in_range g (after g r n)).
  { intros n. apply after_in_range; auto; apply Hr. }
  induction k as [|k IH].
  - rewrite after_S.
    apply step_syncs;
      [assumption | assumption | apply (Hk 0%nat) | now apply syncs_follow_origin].
  - rewrite (after_S hbits vbits g r (S k)).
    apply step_syncs; [assumption | assumption | apply Hk | apply IH].
Qed.

(** X6.  With ordered sync windows that end within the scan totals, from a
    frame start with both syncs low (reset, or any later frame start), a step
    leaves [source.hsync] set exactly when it reads
    [hsync_start <= hcounter < hsync_end], and [source.vsync] set exactly
    when it reads [vsync_start <= vcounter < vsync_end]; a window whose
    start equals its end gives no pulse, the clear coming after the set. *)
Theorem sync_pulses_cover_their_windows (g : frame_parameter) (r : regs) (k : nat) :
  well_sized g -> sync_windows_fit g ->
  hcounter r = 0 -> vcounter r = 0 ->
  source_hsync r = false -> source_vsync r = false ->
  source_hsync (after g r (S k)) =
    (hsync_start g <=? hcounter (after g r k)) &&
    (hcounter (after g r k) <? hsync_end g) /\
  source_vsync (after g r (S k)) =
    (vsync_start g <=? vcounter (after g r k)) &&
    (vcounter (after g r k) <? vsync_end g).
Proof.
  intros Hw Hs Hc Hd Eh Ev.
  destruct (after_syncs g r k Hw Hs Hc Hd Eh Ev) as (E1 & E2 & _).
  now split.
Qed.

(** The registers at every frame boundary but the first. *)
Definition frame_end : regs := Regs false false 0 0 true false false.

Lemma after_add g r a b : after g r (a + b) = after g (after g r a) b.
Proof.
  unfold TimingGenerator.after. now rewrite repeat_app, run_app.
Qed.

Lemma after_frame g r :
  well_sized g -> resolution_fits g -> sync_windows_fit g ->
  hcounter r = 0 -> vcounter r = 0 ->
  source_hsync r = false -> source_vsync r = false ->
  after g r (frame_steps g) = frame_end.
Proof.
  intros Hw Hf Hs Hc Hd Eh Ev.
  pose proof (frame_steps_eq hbits vbits g Hw) as EN.
  destruct (frame_wraps hbits vbits g r Hw Hc Hd) as [W1 W2].
  destruct (frame_steps g) as [|n] eqn:En; [destruct Hw; nia|].
  destruct (frame_flags hbits vbits g r n Hw Hf Hc Hd) as (_ & _ & F1 & F2); [lia|].
  destruct (after_syncs g r n Hw Hs Hc Hd Eh Ev) as (_ & _ & S1 & S2).
  assert (L : source_last (after g r (S n)) = true).
  { rewrite after_S, tick_accepted by reflexivity.
    unfold snapshot_update. cbn [source_last sink always_ready].
    destruct (frame_last_step hbits vbits g r n Hw Hc Hd) as [_ Hl];
      [lia|]. destruct Hl as [-> ->]; [lia|].
    now rewrite !Z.eqb_refl. }
  rewrite W1 in F1, F2, S1, S2. rewrite W2 in F2, S2.
  destruct Hs as (H1 & H2 & H3 & H4).
  destruct (after g r (S n)) as [ha va hc vc l hs vs].
  cbn in W1, W2, F1, F2, S1, S2, L. subst.
  unfold frame_end. f_equal; split_tests; try reflexivity; lia.
Qed.

(** X7.  Under a geometry with resolutions and sync windows within the
    scan totals, every frame ends with the same registers (counters 0, all
    flags low but [source.last]), from whatever frame start with both syncs
    low; so from the second frame on, every frame repeats the one that starts
    from those registers, step for step. *)
Theorem frames_repeat (g : frame_parameter) (r : regs) (m k : nat) :
  well_sized g -> resolution_fits g -> sync_windows_fit g ->
  hcounter r = 0 -> vcounter r = 0 ->
  source_hsync r = false -> source_vsync r = false ->
  after g r (frame_steps g) = frame_end /\
  after g r (S m * frame_steps g + k) = after g frame_end k.
Proof.
  intros Hw Hf Hs Hc Hd Eh Ev.
  split; [now apply after_frame|].
  revert r Hc Hd Eh Ev. induction m as [|m IH]; intros r Hc Hd Eh Ev.
  - rewrite Nat.mul_1_l, after_add, after_frame by assumption. reflexivity.
  - replace (S (S m) * frame_steps g + k)%nat
      with (frame_steps g + (S m * frame_steps g + k))%nat by lia.
    rewrite after_add, after_frame by assumption.
    now apply IH.
Qed.

End Widths.

(** ** Instances *)

Lemma counters_stay_in_range_witness :
  in_range scenario
    (run 12 12 reset
       [ always_ready scenario; TgIn true scenario false;
         always_ready scenario; TgIn false scenario true ]).
Proof.
  apply (counters_stay_in_range 12 12 scenario reset).
  - apply scenario_well_sized; reflexivity.
  - unfold in_range. simpl. lia.
  - repeat constructor.
Defined.

Lemma token_acknowledged_at_origin_only_witness :
  hcounter (run 12 12 reset (repeat (always_ready scenario) 28)) = 0 /\
  vcounter (run 12 12 reset (repeat (always_ready scenario) 28)) = 0.
Proof.
  apply (token_acknowledged_at_origin_only 12 12
           (repeat (always_ready scenario) 28) (always_ready scenario)).
  vm_compute. reflexivity.
Defined.

(** The scenario with a horizontal resolution above its scan total. *)
Definition overscan : frame_parameter := FrameParameter 9 1 2 6 2 0 1 3.

Lemma hactive_never_cleared_beyond_scan_witness :
  hactive (after 12 12 overscan reset 10) = true.
Proof.
  apply (hactive_never_cleared_beyond_scan 12 12 overscan reset 9).
  - unfold well_sized, overscan. simpl. lia.
  - simpl. lia.
  - reflexivity.
  - simpl. lia.
Defined.

(** The registers standing at [hcounter = 4090], above [hscan = 6]. *)
Definition stranded : regs := Regs false false 4090 1 false false false.

Lemma hcounter_above_scan_wraps_at_width_witness :
  hcounter (after 12 12 scenario stranded 6) = (4090 + 6) mod 2 ^ 12 /\
  vcounter (after 12 12 scenario stranded 6) = 1.
Proof.
  apply (hcounter_above_scan_wraps_at_width 12 12 scenario stranded 6).
  - simpl. lia.
  - simpl. lia.
  - simpl. lia.
Defined.

Lemma sync_pulses_cover_their_windows_witness :
  source_hsync (after 12 12 scenario reset 2) =
    (1 <=? hcounter (after 12 12 scenario reset 1)) &&
    (hcounter (after 12 12 scenario reset 1) <? 2) /\
  source_vsync (after 12 12 scenario reset 2) =
    (0 <=? vcounter (after 12 12 scenario reset 1)) &&
    (vcounter (after 12 12 scenario reset 1) <? 1).
Proof.
  apply (sync_pulses_cover_their_windows 12 12 scenario reset 1);
    try reflexivity.
  - apply scenario_well_sized; reflexivity.
  - unfold sync_windows_fit. simpl. lia.
Defined.

Lemma frames_repeat_witness :
  after 12 12 scenario reset (frame_steps scenario) = frame_end /\
  after 12 12 scenario reset (S 1 * frame_steps scenario + 5) =
  after 12 12 scenario frame_end 5.
Proof.
  apply (frames_repeat 12 12 scenario reset 1 5); try reflexivity.
  - apply scenario_well_sized; reflexivity.
  - unfold resolution_fits. simpl. lia.
  - unfold sync_windows_fit. simpl. lia.
Defined.

End TimingGeneratorFacts.

(** * Further properties of the driver *)

Module DriverFacts.

Import Driver.

Lemma hdmi_phy_side_closed a b (input : nat -> side) t :
  hdmi_phy_side a b input t =
  if (t <? a + b)%nat then side_reset else input (t - (a + b))%nat.
Proof.
  unfold hdmi_phy_side. rewrite tap_nth, length_regs_at.
  unfold depth. destruct (a + b)%nat as [|n] eqn:Ed.
  - simpl. f_equal. lia.
  - rewrite nth_regs_at by (unfold depth; lia).
    destruct (Nat.ltb_spec n t), (Nat.ltb_spec t (S n)); try lia; try reflexivity.
    f_equal. lia.
Qed.

(** X8.  The chain of [a + b] registers built by the loop is a chain of
    [a] registers feeding a chain of [b] registers: the side signals at the
    PHY are the ones a delay line for the first stage alone would hand to a
    delay line for the second stage alone. *)
Theorem delay_lines_compose (a b : nat) (input : nat -> side) (t : nat) :
  hdmi_phy_side a b input t =
  hdmi_phy_side 0 b (hdmi_phy_side a 0 input) t.
Proof.
  rewrite !hdmi_phy_side_closed. rewrite Nat.add_0_r. simpl.
  destruct (Nat.ltb_spec t (a + b)), (Nat.ltb_spec t b),
           (Nat.ltb_spec (t - b) a); try lia; try reflexivity.
  f_equal. lia.
Qed.

(** X9.  The converter's 16-bit word is split without loss: [y] is its
    high byte, [cb_cr] its low byte, and together they give the word back. *)
Theorem data_splits_into_two_bytes (phy ycbcr444 : Type) (d : driven phy ycbcr444) :
  0 <= converter_source_data _ _ d < 2 ^ 16 ->
  0 <= chroma_upsampler_sink_y _ _ (comb _ _ d) < 2 ^ 8 /\
  0 <= chroma_upsampler_sink_cb_cr _ _ (comb _ _ d) < 2 ^ 8 /\
  chroma_upsampler_sink_y _ _ (comb _ _ d) * 2 ^ 8 +
  chroma_upsampler_sink_cb_cr _ _ (comb _ _ d) = converter_source_data _ _ d.
Proof.
  intros Hd. cbn [comb chroma_upsampler_sink_y chroma_upsampler_sink_cb_cr].
  set (x := converter_source_data phy ycbcr444 d) in *.
  rewrite Z.shiftr_div_pow2 by lia.
  change 255 with (Z.ones 8). rewrite Z.land_ones by lia.
  change (2 ^ 8) with 256 in *. change (2 ^ 16) with 65536 in *.
  pose proof (Z.div_mod x 256 ltac:(lia)).
  pose proof (Z.mod_pos_bound x 256 ltac:(lia)).
  assert (0 <= x / 256 < 256).
  { split; [apply Z.div_pos; lia | apply Z.div_lt_upper_bound; lia]. }
  lia.
Qed.

Definition sample_cycle : driven unit unit :=
  Driven unit unit
    true tt true true tt true
    true (Side true false false) 43981
    true false tt true false 0 0 0.

Lemma data_splits_into_two_bytes_witness :
  chroma_upsampler_sink_y _ _ (comb _ _ sample_cycle) * 2 ^ 8 +
  chroma_upsampler_sink_cb_cr _ _ (comb _ _ sample_cycle) = 43981.
Proof.
  refine (proj2 (proj2 (data_splits_into_two_bytes unit unit sample_cycle _))).
  simpl. lia.
Defined.

(** ** Device families, lines 108-114, 126-128 and 178 *)

Inductive clocking_class := S6HDMIOutClocking.
Inductive phy_class := S6HDMIOutPHY.

Definition clocking_cls : gmap string clocking_class :=
  {[ "xc6"%string := S6HDMIOutClocking ]}.

Definition phy_cls : gmap string phy_class :=
  {[ "xc6"%string := S6HDMIOutPHY ]}.

(** [device[:3]]. *)
Definition family (device : string) : string := substring 0 3 device.

(** The two classes the driver instantiates; [None] stands for the
    [KeyError] of a dictionary without the family. *)
Definition Driver_classes (device : string) : option (clocking_class * phy_class) :=
  match clocking_cls !! family device with
  | None => None
  | Some clocking =>
      match phy_cls !! family device with
      | None => None
      | Some hdmi_phy => Some (clocking, hdmi_phy)
      end
  end.

(** X10.  The driver can be built for the devices whose name starts with
    "xc6", and for no other: any other name, the empty one and the ones
    shorter than three characters included, ends in a [KeyError]. *)
Theorem driver_supports_xc6_only (device : string) :
  Driver_classes device =
  if String.prefix "xc6" device
  then Some (S6HDMIOutClocking, S6HDMIOutPHY)
  else None.
Proof.
  unfold Driver_classes, clocking_cls, phy_cls.
  destruct (String.prefix "xc6" device) eqn:E.
  - apply prefix_correct in E. simpl String.length in E.
    unfold family. rewrite E. now rewrite !lookup_singleton_eq.
  - assert (Hne : "xc6"%string <> family device).
    { intros H. unfold family in H. symmetry in H.
      change 3%nat with (String.length "xc6") in H.
      apply prefix_correct in H. congruence. }
    now rewrite lookup_singleton_ne.
Qed.

End DriverFacts.

(** * FrameInitiator *)

From stdpp Require Import pretty.

Local Open Scope Z_scope.

Module FrameInitiator.

(** One entry of the layout handed to [SingleGenerator]: the short form
    [(name, nbits)] and the long form [(name, nbits, reset, alignment)]. *)
Inductive field :=
  | Field (name : string) (nbits : Z)
  | AlignedField (name : string) (nbits reset alignment : Z).

Definition field_name (f : field) : string :=
  match f with
  | Field name _ => name
  | AlignedField name _ _ _ => name
  end.

(** [range(n)]: empty when [n <= 0]. *)
Definition range (n : Z) : list Z := List.map Z.of_nat (seq 0 (Z.to_nat n)).

Section Layout.

(** [hbits], [vbits] and [bpp] come from litevideo.output.common;
    [log2_int] comes from the HDL library and raises on the widths it does
    not accept ([None]). *)
Variables hbits vbits bpp : Z.
Variable log2_int : Z -> option Z.

(** ["base"+str(i)]. *)
Definition base (i : Z) : string := "base" +:+ pretty i.

(** [__init__], lines 27-45: the layout passed to [SingleGenerator]. *)
Definition layout (bus_aw pack_factor ndmas : Z) : option (list field) :=
  match log2_int pack_factor with
  | None => None
  | Some h_alignment_bits =>
      match log2_int (bpp / 8) with
      | None => None
      | Some log2_bytes =>
          let bus_alignment_bits := h_alignment_bits + log2_bytes in
          Some ([ AlignedField "hres" hbits 0 h_alignment_bits;
                  AlignedField "hsync_start" hbits 0 h_alignment_bits;
                  AlignedField "hsync_end" hbits 0 h_alignment_bits;
                  AlignedField "hscan" hbits 0 h_alignment_bits;
                  Field "vres" vbits;
                  Field "vsync_start" vbits;
                  Field "vsync_end" vbits;
                  Field "vscan" vbits;
                  AlignedField "length" (bus_aw + bus_alignment_bits) 0
                               bus_alignment_bits ]
                ++ List.map (fun i => AlignedField (base i)
                                       (bus_aw + bus_alignment_bits) 0
                                       bus_alignment_bits)
                            (range ndmas))
      end
  end.

(** [dma_subr], lines 47-48. *)
Definition dma_subr (i : Z) : list string := [ "length"%string; base i ].

(** The names of the nine fields that do not depend on [ndmas]. *)
Definition fixed_names : list string :=
  [ "hres"; "hsync_start"; "hsync_end"; "hscan";
    "vres"; "vsync_start"; "vsync_end"; "vscan"; "length" ]%string.

Lemma layout_names bus_aw pack_factor ndmas l :
  layout bus_aw pack_factor ndmas = Some l ->
  List.map field_name l = fixed_names ++ List.map base (range ndmas).
Proof.
  unfold layout. destruct (log2_int pack_factor); [|discriminate].
  destruct (log2_int (bpp / 8)); [|discriminate].
  intros [= <-]. unfold fixed_names. cbn [List.map app field_name].
  rewrite List.map_map. reflexivity.
Qed.

Lemma base_inj i j : base i = base j -> i = j.
Proof.
  unfold base. intros H. apply (inj (String.app "base")) in H.
  now apply (inj pretty) in H.
Qed.

Lemma base_not_fixed i : ~ In (base i) fixed_names.
Proof.
  unfold base, fixed_names. simpl.
  intros H. repeat (destruct H as [H | H]; [discriminate H|]). exact H.
Qed.

Lemma in_range_iff i n : In i (range n) <-> 0 <= i < n.
Proof.
  unfold range. rewrite in_map_iff. split.
  - intros (k & <- & Hk). apply in_seq in Hk. lia.
  - intros Hi. exists (Z.to_nat i). split; [lia|]. apply in_seq. lia.
Qed.

Lemma NoDup_range n : List.NoDup (range n).
Proof.
  unfold range. generalize (seq_NoDup (Z.to_nat n) 0).
  induction 1 as [|k l Hk _ IH]; simpl; constructor; [|assumption].
  rewrite in_map_iff. intros (k' & E & Hin).
  apply Nat2Z.inj in E. now subst.
Qed.

Lemma NoDup_bases n : List.NoDup (List.map base (range n)).
Proof.
  generalize (NoDup_range n).
  induction 1 as [|i l Hi _ IH]; simpl; constructor; [|assumption].
  rewrite in_map_iff. intros (j & E & Hin).
  apply base_inj in E. now subst.
Qed.

(** X11.  When the layout can be built it has [9 + ndmas] fields (nine
    for [ndmas <= 0]) and no two of them share a name. *)
Theorem layout_names_are_distinct (bus_aw pack_factor ndmas : Z) (l : list field) :
  layout bus_aw pack_factor ndmas = Some l ->
  length l = (9 + Z.to_nat ndmas)%nat /\
  List.NoDup (List.map field_name l).
Proof.
  intros Hl. pose proof (layout_names _ _ _ _ Hl) as En. split.
  - rewrite <- (List.length_map field_name), En, List.length_app.
    unfold range. now rewrite !List.length_map, List.length_seq.
  - rewrite En. apply List.NoDup_app.
    + unfold fixed_names.
      repeat (constructor; [simpl; intros H;
        repeat (destruct H as [H | H]; [discriminate H|]); exact H|]).
      constructor.
    + apply NoDup_bases.
    + intros name Hf Hb. apply in_map_iff in Hb.
      destruct Hb as (i & <- & _). now apply (base_not_fixed i).
Qed.

(** X12.  [dma_subr] does not check its index: the two names it returns
    are both fields of the layout exactly when [0 <= i < ndmas]; for any
    other index the second one names no field. *)
Theorem dma_subr_names_exist_iff_index_in_range
    (bus_aw pack_factor ndmas i : Z) (l : list field) :
  layout bus_aw pack_factor ndmas = Some l ->
  (Forall (fun name => In name (List.map field_name l)) (dma_subr i)
   <-> 0 <= i < ndmas).
Proof.
  intros Hl. rewrite (layout_names _ _ _ _ Hl). unfold dma_subr. split.
  - intros H. inversion H as [|? ? _ H2]; subst.
    inversion H2 as [|? ? Hb _]; subst.
    apply in_app_or in Hb. destruct Hb as [Hb | Hb].
    + now apply base_not_fixed in Hb.
    + apply in_map_iff in Hb. destruct Hb as (j & E & Hj).
      apply base_inj in E. subst. now apply in_range_iff.
  - intros Hi. constructor; [|constructor; [|constructor]].
    + apply in_or_app. left. unfold fixed_names. simpl. tauto.
    + apply in_or_app. right. apply in_map. now apply in_range_iff.
Qed.

End Layout.

(** A [log2_int] on the powers of two up to 8. *)
Definition log2_small (n : Z) : option Z :=
  if n =? 1 then Some 0
  else if n =? 2 then Some 1
  else if n =? 4 then Some 2
  else if n =? 8 then Some 3
  else None.

Lemma layout_names_are_distinct_witness :
  exists l,
    layout 12 12 16 log2_small 30 4 2 = Some l /\
    length l = 11%nat /\ List.NoDup (List.map field_name l).
Proof.
  eexists. split; [reflexivity|].
  exact (layout_names_are_distinct 12 12 16 log2_small 30 4 2 _ eq_refl).
Defined.

Lemma dma_subr_names_exist_iff_index_in_range_witness :
  exists l,
    layout 12 12 16 log2_small 30 4 2 = Some l /\
    (Forall (fun name => In name (List.map field_name l)) (dma_subr 1)
     <-> 0 <= 1 < 2).
Proof.
  eexists. split; [reflexivity|].
  exact (dma_subr_names_exist_iff_index_in_range 12 12 16 log2_small 30 4 2 1 _ eq_refl).
Defined.

End FrameInitiator.

(** * Geometry switches *)

Module GeometrySwitch.

Import TimingGenerator TimingGeneratorFacts.

(** The token of a cycle replaced by [g]. *)
Definition retoken (g : frame_parameter) (i : tg_in) : tg_in :=
  TgIn (sink_valid i) g (source_ready i).

(** [g'] differs from [g] at most in [hres] and [vres]. *)
Definition same_scan_fields (g g' : frame_parameter) : Prop :=
  hsync_start g' = hsync_start g /\ hsync_end g' = hsync_end g /\
  hscan g' = hscan g /\
  vsync_start g' = vsync_start g /\ vsync_end g' = vsync_end g /\
  vscan g' = vscan g.

Lemma succ_mod n m :
  0 < m -> (n + 1) mod m = if n mod m =? m - 1 then 0 else n mod m + 1.
Proof.
  intros Hm.
  pose proof (Z.div_mod n m ltac:(lia)) as Hd.
  pose proof (Z.mod_pos_bound n m Hm) as Hb.
  destruct (Z.eqb_spec (n mod m) (m - 1)) as [E|E]; symmetry.
  - apply Z.mod_unique with (n / m + 1); lia.
  - apply Z.mod_unique with (n / m); lia.
Qed.

Section Widths.

Variables hbits vbits : Z.

Local Abbreviation tick := (TimingGenerator.tick hbits vbits).
Local Abbreviation run := (TimingGenerator.run hbits vbits).
Local Abbreviation after := (TimingGenerator.after hbits vbits).
Local Abbreviation outputs := (TimingGenerator.outputs hbits vbits).
Local Abbreviation holds_token := (TimingGenerator.holds_token hbits vbits).
Local Abbreviation well_sized := (TimingGenerator.well_sized hbits vbits).

(** ** Frames by the counters *)

Definition at_origin (r : regs) : bool :=
  (hcounter r =? 0) && (vcounter r =? 0).

(** The geometry read by each accepted step, grouped into frames: a frame
    starts with the accepted step that reads both counters at 0.  The first
    group holds the steps taken before the first frame start, none after
    reset. *)
Fixpoint frames_from (r : regs) (ins : list tg_in)
    (cur : list frame_parameter) : list (list frame_parameter) :=
  match ins with
  | [] => [cur]
  | i :: rest =>
      if accepted i then
        if at_origin r
        then cur :: frames_from (tick i r) rest [sink i]
        else frames_from (tick i r) rest (cur ++ [sink i])
      else frames_from (tick i r) rest cur
  end.

Definition frames (ins : list tg_in) : list (list frame_parameter) :=
  frames_from reset ins [].

(** Every step of the frame but the first reads the same geometry. *)
Definition settled (frame : list frame_parameter) : Prop :=
  constant (tail frame).

Lemma not_origin_not_last r :
  last_at_origin r -> at_origin r = false -> source_last r = false.
Proof.
  unfold last_at_origin, at_origin. intros Hl Ho.
  destruct (source_last r) eqn:E; [|reflexivity].
  destruct Hl as [E1 E2]; [reflexivity|].
  rewrite E1, E2 in Ho. discriminate Ho.
Qed.

Lemma tail_snoc (cur : list frame_parameter) g :
  tail (cur ++ [g]) = match cur with [] => [] | _ :: _ => tail cur ++ [g] end.
Proof. now destruct cur. Qed.

Lemma frames_from_settled ins : forall r cur,
  last_at_origin r ->
  holds_token r ins ->
  settled cur ->
  (tail cur <> [] ->
   match ins with
   | [] => True
   | i :: _ => sink_valid i = true /\ forall g, In g (tail cur) -> g = sink i
   end) ->
  Forall settled (frames_from r ins cur).
Proof.
  induction ins as [|i rest IH]; intros r cur Hl Hp Hc Hcur; simpl.
  - constructor; [assumption | constructor].
  - destruct Hp as [Hnext Hp].
    pose proof (tick_last_at_origin hbits vbits i r Hl) as Hl'.
    assert (Hall : forall g, In g (tail cur) -> g = sink i).
    { intros g Hg. destruct (tail cur) as [|g0 t] eqn:Et; [destruct Hg|].
      destruct Hcur as [_ Hcur]; [discriminate|]. now apply Hcur. }
    destruct (accepted i) eqn:Ha.
    + destruct (at_origin r) eqn:Ho.
      * constructor; [assumption|].
        apply IH; [assumption | assumption | intros ? ? [] |].
        intros H. now contradiction H.
      * assert (Hs : settled (cur ++ [sink i])).
        { unfold settled. rewrite tail_snoc. destruct cur as [|g0 cur'].
          - intros ? ? [].
          - now apply constant_snoc. }
        apply IH; [assumption | assumption | assumption |].
        intros _. destruct rest as [|j rest']; [exact I|].
        unfold accepted in Ha. apply andb_true_iff in Ha. destruct Ha as [Hv _].
        destruct Hnext as [Hj1 Hj2]; [assumption | |].
        { rewrite sink_ready_eq, (not_origin_not_last r Hl Ho).
          apply andb_false_r. }
        split; [assumption|]. intros g Hg. rewrite Hj2.
        rewrite tail_snoc in Hg. destruct cur as [|g0 cur']; [destruct Hg|].
        apply in_app_or in Hg. simpl in Hg.
        destruct Hg as [Hg|[Hg|[]]]; auto.
    + apply IH; [assumption | assumption | assumption |].
      intros Hne. destruct rest as [|j rest']; [exact I|].
      destruct Hcur as [Hv _]; [assumption|].
      unfold accepted in Ha. rewrite Hv in Ha. simpl in Ha.
      destruct Hnext as [Hj1 Hj2]; [assumption | |].
      { rewrite sink_ready_eq, Ha. reflexivity. }
      split; [assumption|]. intros g Hg. rewrite Hj2. now apply Hall.
Qed.

(** C3, as the code has it.  [sink.ready] is driven only on cycles on
    which [source.last] is driven and the downstream is ready; from reset
    on, such a cycle reads both counters at 0: it is the first step of a
    frame, not its last.  So, against a geometry source that keeps an
    untaken token unchanged, a new geometry takes effect one step into a
    frame: the steps of a frame after the first all read one geometry. *)
Theorem geometry_switches_one_step_into_frame (ins : list tg_in) :
  holds_token reset ins ->
  (forall i s, sink_ready (comb i s) = true ->
     out_last (comb i s) = true /\ source_ready i = true) /\
  (forall pre i post, ins = pre ++ i :: post ->
     sink_ready (comb i (run reset pre)) = true ->
     at_origin (run reset pre) = true) /\
  Forall settled (frames ins).
Proof.
  intros Hp. split; [|split].
  - intros i s. rewrite sink_ready_eq. cbn [out_last comb].
    intros H. apply andb_true_iff in H. tauto.
  - intros pre i post _ H. rewrite sink_ready_eq in H.
    apply andb_true_iff in H. destruct H as [_ Hl].
    destruct (run_last_at_origin hbits vbits pre reset) as [E1 E2];
      [discriminate | exact Hl |].
    unfold at_origin. now rewrite E1, E2.
  - apply frames_from_settled.
    + discriminate.
    + assumption.
    + intros ? ? [].
    + intros H. now contradiction H.
Qed.

(** ** Zero resolution *)

Lemma counters_forever g r k :
  well_sized g -> hcounter r = 0 -> vcounter r = 0 ->
  exists n c,
    Z.of_nat k = n * (hscan g + 1) + c /\
    0 <= c <= hscan g /\ 0 <= n /\
    hcounter (after g r k) = c /\
    vcounter (after g r k) = n mod (vscan g + 1).
Proof.
  intros Hw Hr1 Hr2. induction k as [|k IH].
  - exists 0, 0. destruct Hw. unfold TimingGenerator.after. simpl.
    repeat split; auto; lia.
  - destruct IH as (n & c & Ek & Hc & Hn & E1 & E2).
    pose proof Hw as [Hh Hv].
    pose proof (Z.mod_pos_bound n (vscan g + 1) ltac:(lia)) as Hb.
    rewrite after_S.
    destruct (step_counters hbits vbits g (after g r k) Hw) as [Ec Ed];
      [lia | lia |].
    rewrite Ec, Ed, E1, E2.
    destruct (Z.eqb_spec c (hscan g)) as [->|Hne].
    + exists (n + 1), 0. rewrite (succ_mod n (vscan g + 1)) by lia.
      replace (vscan g + 1 - 1) with (vscan g) by lia.
      repeat split; lia.
    + exists n, (c + 1). repeat split; lia.
Qed.

Lemma zero_resolution_from_reset g ins :
  hres g = 0 \/ vres g = 0 ->
  Forall (fun i => sink i = g) ins ->
  zero_resolution reset ins.
Proof.
  intros [Hz | Hz] Hall; [left | right]; (split; [reflexivity|]);
    eapply Forall_impl; try exact Hall; intros i ->; exact Hz.
Qed.

Lemma same_scan_retoken g g' ins :
  same_scan_fields g g' ->
  Forall (fun i => sink i = g) ins ->
  Forall2 same_scan ins (List.map (retoken g') ins).
Proof.
  intros (H1 & H2 & H3 & H4 & H5 & H6).
  induction 1 as [|i ins Hi _ IH]; simpl; constructor; [|assumption].
  unfold same_scan, retoken. simpl. rewrite Hi. now repeat split.
Qed.


End Widths.

(** ** Instances *)

(** A switch at the frame boundary from [short_frame 1] to
    [short_frame 0]: the token changes after the cycle that acknowledged
    it. *)
Definition switch_short : list tg_in :=
  [ always_ready (short_frame 1); always_ready (short_frame 1);
    always_ready (short_frame 1); always_ready (short_frame 0) ].

(** C3, as the design document has it, fails.  The geometry source keeps
    its token until it is acknowledged, and still the second frame reads
    two geometries: its first step (counters at 0, the acknowledge) reads
    [short_frame 1], its second step [short_frame 0]. *)
Lemma frame_reads_two_geometries :
  holds_token 12 12 reset switch_short /\
  frames 12 12 switch_short =
    [ []; [short_frame 1; short_frame 1]; [short_frame 1; short_frame 0] ] /\
  ~ Forall constant (frames 12 12 switch_short).
Proof.
  assert (Hf : frames 12 12 switch_short =
    [ []; [short_frame 1; short_frame 1]; [short_frame 1; short_frame 0] ])
    by (vm_compute; reflexivity).
  split; [|split; [exact Hf|]].
  - simpl. repeat split; auto. unfold lit in *. discriminate.
  - rewrite Hf. intros H.
    inversion H as [|? ? _ H1]; subst. inversion H1 as [|? ? _ H2]; subst.
    inversion H2 as [|? ? Hc _]; subst.
    specialize (Hc (short_frame 1) (short_frame 0)).
    discriminate Hc; simpl; auto.
Qed.

Lemma geometry_switches_one_step_into_frame_witness :
  Forall settled (frames 12 12 switch_short).
Proof.
  refine (proj2 (proj2 (geometry_switches_one_step_into_frame 12 12 switch_short _))).
  simpl. repeat split; auto. unfold lit in *. discriminate.
Defined.

(** Eight-step frames: [hscan = 3], [vscan = 1]. *)
Definition wide (h : Z) : frame_parameter := FrameParameter h 0 1 3 1 0 1 1.

(** One frame under [wide 2], the acknowledge on cycle 8, then [wide 0]. *)
Definition switch_to_zero : list tg_in :=
  repeat (always_ready (wide 2)) 9 ++ [always_ready (wide 0)].



End GeometrySwitch.

(** * Elements through the driver's boundaries *)

Module DriverStreams.

Import Driver.

Section Streams.

Variables phy ycbcr444 : Type.

Local Abbreviation cycle := (driven phy ycbcr444).
Local Abbreviation comb := (Driver.comb phy ycbcr444).

(** Over a run of cycles, the payloads that leave the producer of a
    boundary and the payloads that enter its consumer. *)
Definition leaving {P : Type} (b : cycle -> Stream.boundary)
    (payload : cycle -> P) (run : list cycle) : list P :=
  List.map payload (List.filter (fun d => Stream.leaves (b d)) run).

Definition entering {P : Type} (b : cycle -> Stream.boundary)
    (payload : cycle -> P) (run : list cycle) : list P :=
  List.map payload (List.filter (fun d => Stream.enters (b d)) run).

(** What the converter offers and what the chroma upsampler is handed. *)
Definition converter_element (d : cycle) : side * Z :=
  (converter_source _ _ d, converter_source_data _ _ d).

Definition upsampler_element (d : cycle) : Z * Z :=
  (chroma_upsampler_sink_y _ _ (comb d),
   chroma_upsampler_sink_cb_cr _ _ (comb d)).

Lemma filter_ext_bool (f g : cycle -> bool) run :
  (forall d, f d = g d) -> List.filter f run = List.filter g run.
Proof.
  intros E. induction run as [|d run IH]; simpl; [reflexivity|].
  now rewrite E, IH.
Qed.

(** A producer that obeys the handshake, holding the elements [q] still to
    be sent: it offers the head of [q] with [valid], nothing when [q] is
    empty, and moves on exactly when its element leaves. *)
Fixpoint offers {P : Type} (b : cycle -> Stream.boundary)
    (payload : cycle -> P) (q : list P) (run : list cycle) : Prop :=
  match run with
  | [] => True
  | d :: rest =>
      match q with
      | [] => Stream.out_valid (b d) = false
      | e :: _ => Stream.out_valid (b d) = true /\ payload d = e
      end /\
      offers b payload (if Stream.leaves (b d) then tail q else q) rest
  end.

(** What the producer still holds after the run. *)
Fixpoint pending {P : Type} (b : cycle -> Stream.boundary)
    (q : list P) (run : list cycle) : list P :=
  match run with
  | [] => q
  | d :: rest => pending b (if Stream.leaves (b d) then tail q else q) rest
  end.

Lemma connected_conserves {P : Type} (b : cycle -> Stream.boundary)
    (payload payload' : cycle -> P) :
  (forall d, Stream.enters (b d) = Stream.leaves (b d)) ->
  (forall d, payload' d = payload d) ->
  forall run q,
    offers b payload q run ->
    entering b payload' run ++ pending b q run = q.
Proof.
  intros He Hp. induction run as [|d rest IH]; intros q Ho; [reflexivity|].
  destruct Ho as [Hq Ho]. unfold entering in *. simpl. rewrite He.
  destruct (Stream.leaves (b d)) eqn:Hl.
  - unfold Stream.leaves in Hl. apply andb_true_iff in Hl. destruct Hl as [Hv _].
    destruct q as [|e q']; [congruence|]. destruct Hq as [_ <-].
    simpl. rewrite Hp. f_equal. now apply IH.
  - now apply IH.
Qed.



End Streams.

(** A blanking cycle at the converter's output: the element is valid, [de]
    is low, every consumer is ready. *)
Definition blanking_cycle : driven unit unit :=
  Driven unit unit
    true tt true true tt true
    true (Side false true false) 0
    true false tt true false 0 0 0.


(** A cycle on which the queue is not ready for the word at the driver's
    input, followed by a cycle on which it is. *)
Definition queue_full : driven unit unit :=
  Driven unit unit
    true tt false false tt true
    false (Side false false false) 0
    true false tt true false 0 0 0.

Definition queue_free : driven unit unit :=
  Driven unit unit
    true tt true false tt true
    false (Side false false false) 0
    true false tt true false 0 0 0.


(** A cycle on which the queue offers a word and the width converter is
    not ready for it. *)
Definition converter_busy : driven unit unit :=
  Driven unit unit
    true tt true true tt false
    true (Side true false false) 0
    true false tt true false 0 0 0.


End DriverStreams.
